(** * LuckyBall: the encrypted ticket / draw / score state machine

    A shallow embedding of the Solidity contract [LuckyBall] and the
    properties of its three ledgers (draws, tickets, scores).

    - Unsigned integers are [N]; where Solidity 0.8 checks an operation the
      check is written out and the failure is a [Panic].
    - A [mapping] is a [gmap]; a key that was never written reads as the
      zero value of the value type.
    - A dynamic storage array is a [list], indexed with stdpp's lookup.
    - Every external function runs in the monad [M]: it threads the contract
      storage and either returns a value with the new storage or reverts.
    - The FHE library and keccak256 are external to the contract; they are
      taken as interfaces ([FHE], [Keccak]) with a clear-text instance to
      evaluate the contract on concrete transactions. *)

From Stdlib Require Import NArith String List Lia Sorted.
From stdpp Require Import gmap strings list fin_maps.

Local Open Scope string_scope.
Local Open Scope list_scope.
Local Open Scope N_scope.

(** ** Machine integers *)

Definition MAX_UINT256 : N := 2 ^ 256 - 1.

(** [uintN(x)]: an explicit conversion keeps the low bits. *)
Definition uint256 (x : N) : N := x mod 2 ^ 256.
Definition uint8 (x : N) : N := x mod 2 ^ 8.

(** Big-endian bytes of [v] on [width] bytes, as [abi.encodePacked] lays
    out a static value. *)
Fixpoint be_bytes (width : nat) (v : N) : list N :=
  match width with
  | O => []
  | S w => be_bytes w (v / 256) ++ [v mod 256]
  end.

(** ** External capabilities *)

Definition address := N.
Definition bytes := list N.

(** keccak256 over a byte string; the contract converts the digest with
    [uint256(...)]. *)
Class Keccak := { keccak256 : bytes → N }.

(** The encrypted-value capability (FHE.sol).  Handles are opaque to the
    contract.  [clear8], [clear32] and [clearb] give the plaintext a handle
    stands for: what its owner decrypts, and 0 for the uninitialised handle,
    which the library's operators replace by a trivial encryption of zero. *)
Class FHE := {
  euint8 : Type;
  euint32 : Type;
  ebool : Type;
  externalEuint8 : Type;
  (* bytes32(0): the value of a handle that was never assigned *)
  uninit8 : euint8;
  uninit32 : euint32;
  isInitialized32 : euint32 → bool;
  (* FHE.fromExternal(handle, proof), for the sending user and this
     contract; None when the proof is rejected *)
  fromExternal : externalEuint8 → bytes → address → address → option euint8;
  asEuint8 : N → euint8;
  asEuint32 : N → euint32;
  fhe_eq : euint8 → euint8 → ebool;
  fhe_add : euint32 → euint32 → euint32;
  fhe_select : ebool → euint32 → euint32 → euint32;
  clear8 : euint8 → N;
  clear32 : euint32 → N;
  clearb : ebool → bool;
  uninit32_not_initialized : isInitialized32 uninit32 = false;
  asEuint32_initialized : ∀ v, isInitialized32 (asEuint32 v) = true;
  clear_uninit32 : clear32 uninit32 = 0;
  clear_asEuint8 : ∀ v, clear8 (asEuint8 v) = v mod 2 ^ 8;
  clear_asEuint32 : ∀ v, clear32 (asEuint32 v) = v mod 2 ^ 32;
  clear_eq : ∀ a b, clearb (fhe_eq a b) = (clear8 a =? clear8 b);
  clear_add : ∀ a b, clear32 (fhe_add a b) = (clear32 a + clear32 b) mod 2 ^ 32;
  clear_select : ∀ c a b,
    clear32 (fhe_select c a b) = if clearb c then clear32 a else clear32 b;
  clear32_range : ∀ a, clear32 a < 2 ^ 32
}.

(** ** The contract *)

Module LuckyBall.

(** How a call can revert. *)
Inductive Failure :=
| Error (reason : string)   (* require(cond, reason) *)
| Panic (code : N)          (* 0x11 arithmetic, 0x32 array index *)
| InvalidProof.             (* FHE.fromExternal rejected the input *)

Inductive Result (A : Type) :=
| Ok (a : A)
| Revert (f : Failure).
Arguments Ok {A} a.
Arguments Revert {A} f.

Section Contract.
Context `{K : Keccak} `{F : FHE}.

Definition TICKET_PRICE : N := 1000000000000000.
Definition MIN_NUMBER : N := 1.
Definition MAX_NUMBER : N := 9.
Definition WIN_REWARD : N := 10.

Record Ticket := mkTicket {
  number : euint8;
  drawId : N;
  claimed : bool
}.

Record Draw := mkDraw {
  winningNumber : N;
  executedAt : N;
  executed : bool
}.

Inductive Event :=
| TicketPurchased (player : address) (draw ticketIndex : N)
| DrawExecuted (draw : N) (winning : N)
| TicketClaimProcessed (player : address) (draw ticketIndex : N).

(** A decryption grant [FHE.allow(handle, account)]. *)
Inductive Grant :=
| Allow8 (h : euint8) (account : address)
| Allow32 (h : euint32) (account : address).

(** Contract storage, with the event log and the grants issued so far. *)
Record State := mkState {
  playerTickets : gmap address (list Ticket);
  playerScores : gmap address euint32;
  scoreInitialized : gmap address bool;
  draws : gmap N Draw;
  currentDrawId : N;
  events : list Event;
  acl : list Grant
}.

(** What a transaction sees of its environment.  [msg.value] is an argument
    of the one payable function. *)
Record Env := mkEnv {
  msg_sender : address;
  this : address;
  block_timestamp : N;
  block_prevrandao : N;
  block_number : N;
  blockhash : N → N
}.

(** *** Zero values and mapping reads *)

Definition zeroTicket : Ticket := mkTicket uninit8 0 false.
Definition zeroDraw : Draw := mkDraw 0 0 false.

Definition tickets_of (s : State) (p : address) : list Ticket :=
  default [] (playerTickets s !! p).
Definition score_of (s : State) (p : address) : euint32 :=
  default uninit32 (playerScores s !! p).
Definition initialized (s : State) (p : address) : bool :=
  default false (scoreInitialized s !! p).
Definition draw_at (s : State) (id : N) : Draw :=
  default zeroDraw (draws s !! id).

(** *** Field updates *)

Definition set_number (n : euint8) (t : Ticket) := mkTicket n (drawId t) (claimed t).
Definition set_drawId (d : N) (t : Ticket) := mkTicket (number t) d (claimed t).
Definition set_claimed (c : bool) (t : Ticket) := mkTicket (number t) (drawId t) c.

Definition set_winningNumber (w : N) (d : Draw) := mkDraw w (executedAt d) (executed d).
Definition set_executedAt (a : N) (d : Draw) := mkDraw (winningNumber d) a (executed d).
Definition set_executed (e : bool) (d : Draw) := mkDraw (winningNumber d) (executedAt d) e.

Definition with_tickets (f : gmap address (list Ticket) → gmap address (list Ticket))
    (s : State) : State :=
  mkState (f (playerTickets s)) (playerScores s) (scoreInitialized s) (draws s)
          (currentDrawId s) (events s) (acl s).
Definition with_scores (f : gmap address euint32 → gmap address euint32) (s : State) : State :=
  mkState (playerTickets s) (f (playerScores s)) (scoreInitialized s) (draws s)
          (currentDrawId s) (events s) (acl s).
Definition with_initialized (f : gmap address bool → gmap address bool) (s : State) : State :=
  mkState (playerTickets s) (playerScores s) (f (scoreInitialized s)) (draws s)
          (currentDrawId s) (events s) (acl s).
Definition with_draws (f : gmap N Draw → gmap N Draw) (s : State) : State :=
  mkState (playerTickets s) (playerScores s) (scoreInitialized s) (f (draws s))
          (currentDrawId s) (events s) (acl s).
Definition with_currentDrawId (c : N) (s : State) : State :=
  mkState (playerTickets s) (playerScores s) (scoreInitialized s) (draws s)
          c (events s) (acl s).
Definition with_events (f : list Event → list Event) (s : State) : State :=
  mkState (playerTickets s) (playerScores s) (scoreInitialized s) (draws s)
          (currentDrawId s) (f (events s)) (acl s).
Definition with_acl (f : list Grant → list Grant) (s : State) : State :=
  mkState (playerTickets s) (playerScores s) (scoreInitialized s) (draws s)
          (currentDrawId s) (events s) (f (acl s)).

(** *** The transaction monad *)

Definition M (A : Type) : Type := State → Result (A * State).

#[local] Instance M_ret : MRet M := λ A a s, Ok (a, s).
#[local] Instance M_bind : MBind M := λ A B k m s,
  match m s with
  | Ok (a, s') => k a s'
  | Revert f => Revert f
  end.

Definition fail {A} (f : Failure) : M A := λ _, Revert f.
Definition gets {A} (f : State → A) : M A := λ s, Ok (f s, s).
Definition modify (f : State → State) : M unit := λ s, Ok (tt, f s).

Definition require (cond : bool) (reason : string) : M unit :=
  if cond then mret tt else fail (Error reason).
Definition emit (e : Event) : M unit := modify (with_events (λ l, l ++ [e])).

(** Checked uint256 arithmetic. *)
Definition checked_add (a b : N) : M N :=
  if a + b <=? MAX_UINT256 then mret (a + b) else fail (Panic 17).
Definition checked_sub (a b : N) : M N :=
  if b <=? a then mret (a - b) else fail (Panic 17).

(** The names the specification gives to the revert reasons. *)
Definition InvalidPayment : Failure := Error "Invalid ticket price".
Definition DrawClosed : Failure := Error "Draw already executed".
Definition AlreadyResolved : Failure := Error "Draw already executed".
Definition InvalidIndex : Failure := Error "Invalid ticket index".
Definition AlreadyClaimed : Failure := Error "Already processed".
Definition DrawNotResolved : Failure := Error "Draw not executed".

(** *** Storage accesses *)

(** [playerTickets[p][i]] as a storage reference: the index is checked. *)
Definition ticket_at (p : address) (i : N) : M Ticket := λ s,
  match tickets_of s p !! N.to_nat i with
  | Some t => Ok (t, s)
  | None => Revert (Panic 50)
  end.

(** [playerTickets[p]] and [draws[id]] as storage slots that are rewritten
    in place. *)
Definition map_tickets (p : address) (g : list Ticket → list Ticket) : State → State :=
  with_tickets (λ m, <[p := g (default [] (m !! p))]> m).
Definition map_draw (id : N) (g : Draw → Draw) : State → State :=
  with_draws (λ m, <[id := g (default zeroDraw (m !! id))]> m).

(** A write to one field of [playerTickets[p][i]]. *)
Definition update_ticket (p : address) (i : N) (f : Ticket → Ticket) : M unit :=
  modify (map_tickets p (alter f (N.to_nat i))).

(** [playerTickets[p].push()] *)
Definition push_ticket (p : address) : M unit :=
  modify (map_tickets p (λ l, l ++ [zeroTicket])).

(** A write to one field of [draws[id]]. *)
Definition update_draw (id : N) (f : Draw → Draw) : M unit :=
  modify (map_draw id f).

Definition allow8 (h : euint8) (account : address) : M unit :=
  modify (with_acl (λ l, l ++ [Allow8 h account])).
Definition allow32 (h : euint32) (account : address) : M unit :=
  modify (with_acl (λ l, l ++ [Allow32 h account])).

(** *** The contract's functions *)

Definition constructor (env : Env) : State :=
  mkState ∅ ∅ ∅ {[ 1 := mkDraw 0 (block_timestamp env) false ]} 1 [] [].

Definition _ensureScore (env : Env) (player : address) : M unit :=
  init ← gets (λ s, initialized s player);
  if negb init then
    let zeroScore := asEuint32 0 in
    modify (with_scores (λ m, <[player := zeroScore]> m));;
    allow32 zeroScore (this env);;
    allow32 zeroScore player;;
    modify (with_initialized (λ m, <[player := true]> m))
  else
    score ← gets (λ s, score_of s player);
    allow32 score player.

Definition _generateWinningNumber (env : Env) : M N :=
  previous ← checked_sub (block_number env) 1;
  cur ← gets currentDrawId;
  let randomness := uint256 (keccak256 (
        be_bytes 32 (block_prevrandao env) ++
        be_bytes 32 (blockhash env previous) ++
        be_bytes 20 (this env) ++
        be_bytes 32 cur ++
        be_bytes 32 (block_timestamp env))) in
  sum ← checked_add (randomness mod MAX_NUMBER) MIN_NUMBER;
  mret (uint8 sum).

Definition buyTicket (env : Env) (value : N) (encryptedNumber : externalEuint8)
    (inputProof : bytes) : M N :=
  require (value =? TICKET_PRICE) "Invalid ticket price";;
  activeDraw ← gets (λ s, draw_at s (currentDrawId s));
  require (negb (executed activeDraw)) "Draw already executed";;
  num ← match fromExternal encryptedNumber inputProof (msg_sender env) (this env) with
         | Some h => mret h
         | None => fail InvalidProof
         end;
  _ensureScore env (msg_sender env);;
  push_ticket (msg_sender env);;
  len ← gets (λ s, N.of_nat (length (tickets_of s (msg_sender env))));
  index ← checked_sub len 1;
  ticket_at (msg_sender env) index;;
  update_ticket (msg_sender env) index (set_number num);;
  cur ← gets currentDrawId;
  update_ticket (msg_sender env) index (set_drawId cur);;
  update_ticket (msg_sender env) index (set_claimed false);;
  ticket ← ticket_at (msg_sender env) index;
  allow8 (number ticket) (this env);;
  allow8 (number ticket) (msg_sender env);;
  emit (TicketPurchased (msg_sender env) cur index);;
  mret index.

Definition executeDraw (env : Env) : M N :=
  cur ← gets currentDrawId;
  activeDraw ← gets (λ s, draw_at s cur);
  require (negb (executed activeDraw)) "Draw already executed";;
  result ← _generateWinningNumber env;
  update_draw cur (set_winningNumber result);;
  update_draw cur (set_executedAt (block_timestamp env));;
  update_draw cur (set_executed true);;
  emit (DrawExecuted cur result);;
  next ← checked_add cur 1;
  modify (with_currentDrawId next);;
  modify (with_draws (λ m, <[next := mkDraw 0 (block_timestamp env) false]> m));;
  mret result.

Definition claimTicket (env : Env) (ticketIndex : N) : M unit :=
  len ← gets (λ s, N.of_nat (length (tickets_of s (msg_sender env))));
  require (ticketIndex <? len) "Invalid ticket index";;
  ticket ← ticket_at (msg_sender env) ticketIndex;
  require (negb (claimed ticket)) "Already processed";;
  settledDraw ← gets (λ s, draw_at s (drawId ticket));
  require (executed settledDraw) "Draw not executed";;
  let winningEncrypted := asEuint8 (winningNumber settledDraw) in
  let isWinner := fhe_eq (number ticket) winningEncrypted in
  currentScore ← gets (λ s, score_of s (msg_sender env));
  let incremented := fhe_add currentScore (asEuint32 WIN_REWARD) in
  let nextScore := fhe_select isWinner incremented currentScore in
  modify (with_scores (λ m, <[msg_sender env := nextScore]> m));;
  update_ticket (msg_sender env) ticketIndex (set_claimed true);;
  allow32 nextScore (this env);;
  allow32 nextScore (msg_sender env);;
  emit (TicketClaimProcessed (msg_sender env) (drawId ticket) ticketIndex).

Definition getScore (player : address) : M euint32 :=
  gets (λ s, score_of s player).
Definition getTickets (player : address) : M (list Ticket) :=
  gets (λ s, tickets_of s player).
Definition getDraw (id : N) : M Draw :=
  gets (λ s, draw_at s id).
Definition totalTickets (player : address) : M N :=
  gets (λ s, N.of_nat (length (tickets_of s player))).

(** *** Transactions *)

Inductive Call :=
| BuyTicket (value : N) (encryptedNumber : externalEuint8) (inputProof : bytes)
| ExecuteDraw
| ClaimTicket (ticketIndex : N).

Definition storage_of {A} (r : Result (A * State)) : Result State :=
  match r with
  | Ok (_, s) => Ok s
  | Revert f => Revert f
  end.

Definition transact (env : Env) (c : Call) (s : State) : Result State :=
  match c with
  | BuyTicket value encryptedNumber inputProof =>
      storage_of (buyTicket env value encryptedNumber inputProof s)
  | ExecuteDraw => storage_of (executeDraw env s)
  | ClaimTicket ticketIndex => storage_of (claimTicket env ticketIndex s)
  end.

(** The storage a transaction leaves behind: a revert rolls it back. *)
Definition commit (s : State) (r : Result State) : State :=
  match r with
  | Ok s' => s'
  | Revert _ => s
  end.

(** The states of a deployed contract: the constructor's, and those that
    successful transactions lead to. *)
Inductive reachable : State → Prop :=
| reachable_deploy env : reachable (constructor env)
| reachable_tx s env c s' :
    reachable s → transact env c s = Ok s' → reachable s'.

(** [later s s']: some sequence of successful transactions leads from [s]
    to [s']. *)
Inductive later : State → State → Prop :=
| later_refl s : later s s
| later_tx s s' env c s'' :
    later s s' → transact env c s' = Ok s'' → later s s''.

(** *** Closed forms of the storage after each function *)

(** The bytes hashed by [_generateWinningNumber] for the draw [cur]. *)
Definition seed (env : Env) (cur : N) : bytes :=
  be_bytes 32 (block_prevrandao env) ++
  be_bytes 32 (blockhash env (block_number env - 1)) ++
  be_bytes 20 (this env) ++
  be_bytes 32 cur ++
  be_bytes 32 (block_timestamp env).

Definition winning (env : Env) (cur : N) : N :=
  uint8 (uint256 (keccak256 (seed env cur)) mod MAX_NUMBER + MIN_NUMBER).

Definition ensured (env : Env) (p : address) (s : State) : State :=
  if initialized s p then
    with_acl (λ l, l ++ [Allow32 (score_of s p) p]) s
  else
    mkState (playerTickets s) (<[p := asEuint32 0]> (playerScores s))
            (<[p := true]> (scoreInitialized s)) (draws s) (currentDrawId s) (events s)
            ((acl s ++ [Allow32 (asEuint32 0) (this env)]) ++ [Allow32 (asEuint32 0) p]).

Definition bought (env : Env) (h : euint8) (s : State) : State :=
  let p := msg_sender env in
  let s1 := ensured env p s in
  mkState (<[p := tickets_of s p ++ [mkTicket h (currentDrawId s) false]]> (playerTickets s))
          (playerScores s1) (scoreInitialized s1) (draws s) (currentDrawId s)
          (events s ++ [TicketPurchased p (currentDrawId s)
                          (N.of_nat (length (tickets_of s p)))])
          ((acl s1 ++ [Allow8 h (this env)]) ++ [Allow8 h p]).

Definition drawn (env : Env) (s : State) : State :=
  let cur := currentDrawId s in
  mkState (playerTickets s) (playerScores s) (scoreInitialized s)
          (<[cur + 1 := mkDraw 0 (block_timestamp env) false]>
             (<[cur := mkDraw (winning env cur) (block_timestamp env) true]> (draws s)))
          (cur + 1) (events s ++ [DrawExecuted cur (winning env cur)]) (acl s).

Definition next_score (s : State) (p : address) (t : Ticket) : euint32 :=
  fhe_select (fhe_eq (number t) (asEuint8 (winningNumber (draw_at s (drawId t)))))
             (fhe_add (score_of s p) (asEuint32 WIN_REWARD)) (score_of s p).

Definition claimedState (env : Env) (i : N) (t : Ticket) (s : State) : State :=
  let p := msg_sender env in
  mkState (<[p := alter (set_claimed true) (N.to_nat i) (tickets_of s p)]> (playerTickets s))
          (<[p := next_score s p t]> (playerScores s)) (scoreInitialized s) (draws s)
          (currentDrawId s)
          (events s ++ [TicketClaimProcessed p (drawId t) i])
          ((acl s ++ [Allow32 (next_score s p t) (this env)])
             ++ [Allow32 (next_score s p t) p]).

(** *** State predicates *)

(** The ids of the draws resolved so far, in the order of the event log. *)
Fixpoint resolved_ids (log : list Event) : list N :=
  match log with
  | [] => []
  | DrawExecuted id _ :: rest => id :: resolved_ids rest
  | _ :: rest => resolved_ids rest
  end.

(** [1; 2; ...; n] *)
Definition ids_upto (n : N) : list N := map N.of_nat (seq 1 (N.to_nat n)).

(** What a transaction can rely on of its block: it is not the genesis
    block, so [block.number - 1] does not underflow. *)
Definition in_block (env : Env) : Prop := 1 ≤ block_number env.

(** The invariant of the three ledgers. *)
Record invariant (s : State) : Prop := {
  inv_current : 1 ≤ currentDrawId s ≤ MAX_UINT256;
  inv_created : ∀ id, is_Some (draws s !! id) ↔ 1 ≤ id ≤ currentDrawId s;
  inv_executed : ∀ id d, draws s !! id = Some d →
    (executed d = true ↔ id < currentDrawId s);
  inv_winning : ∀ id d, draws s !! id = Some d →
    if executed d then 1 ≤ winningNumber d ≤ 9 else winningNumber d = 0;
  inv_bound : ∀ p i t, tickets_of s p !! i = Some t →
    1 ≤ drawId t ≤ currentDrawId s;
  inv_claimed : ∀ p i t, tickets_of s p !! i = Some t → claimed t = true →
    drawId t < currentDrawId s;
  inv_score : ∀ p, initialized s p = false ↔ tickets_of s p = [];
  inv_unset : ∀ p, initialized s p = false → playerScores s !! p = None;
  inv_log : resolved_ids (events s) = ids_upto (currentDrawId s - 1)
}.

End Contract.
End LuckyBall.

(** ** A clear-text instance of the capabilities

    Handles carry their plaintext, as in a mock coprocessor.  It is used to
    run the contract on concrete transactions. *)

Module Mock.

Inductive handle :=
| Uninit
| Cipher (clear : N).

Definition clear (h : handle) : N :=
  match h with
  | Uninit => 0
  | Cipher v => v
  end.

Definition is_init (h : handle) : bool :=
  match h with
  | Uninit => false
  | Cipher _ => true
  end.

(** An external input is accepted when its proof is not empty. *)
Definition import (v : N) (proof : bytes) (user contract : address) : option handle :=
  match proof with
  | [] => None
  | _ :: _ => Some (Cipher (v mod 2 ^ 8))
  end.

Definition clear32m (h : handle) : N := clear h mod 2 ^ 32.

Definition trivial8 (v : N) : handle := Cipher (v mod 2 ^ 8).
Definition trivial32 (v : N) : handle := Cipher (v mod 2 ^ 32).
Definition eq_clear (a b : handle) : bool := clear a =? clear b.
Definition add_clear (a b : handle) : handle :=
  Cipher ((clear32m a + clear32m b) mod 2 ^ 32).
Definition select_clear (c : bool) (a b : handle) : handle := if c then a else b.

#[export] Instance fhe : FHE.
Proof.
  refine {|
    euint8 := handle;
    euint32 := handle;
    ebool := bool;
    externalEuint8 := N;
    uninit8 := Uninit;
    uninit32 := Uninit;
    isInitialized32 := is_init;
    fromExternal := import;
    asEuint8 := trivial8;
    asEuint32 := trivial32;
    fhe_eq := eq_clear;
    fhe_add := add_clear;
    fhe_select := select_clear;
    clear8 := clear;
    clear32 := clear32m;
    clearb := id
  |}; try reflexivity.
  - intros v. apply N.Div0.mod_mod.
  - intros a b. apply N.Div0.mod_mod.
  - intros [] a b; reflexivity.
  - intros a. apply N.mod_lt. discriminate.
Defined.

(** A stand-in digest: the bytes read as a numeral in base 257. *)
#[export] Instance keccak : Keccak :=
  {| keccak256 bs := fold_left (λ acc b, acc * 257 + b + 1) bs 0 |}.

End Mock.

(** ** A concrete run

    Alice buys two tickets (numbers 4 and 5) in draw 1, Bob resolves the
    draw, and Alice claims both tickets. *)

Module Scenario.
Import LuckyBall Mock.

Definition alice : address := 100.
Definition bob : address := 200.
Definition lottery : address := 7.

Definition env (sender : address) : Env :=
  mkEnv sender lottery 1000 5 12 (λ n, n * 3).

(** A purchase of the number [n] at the exact price, with a proof the
    clear-text capability accepts. *)
Definition buy (n : N) : Call := BuyTicket (F := fhe) TICKET_PRICE n [1].

Definition s0 : State := constructor (env alice).
Definition s1 : State := commit s0 (transact (env alice) (buy 4) s0).
Definition s2 : State := commit s1 (transact (env alice) (buy 5) s1).
Definition s3 : State := commit s2 (transact (env bob) ExecuteDraw s2).
Definition s4 : State := commit s3 (transact (env alice) (ClaimTicket 0) s3).
Definition s5 : State := commit s4 (transact (env alice) (ClaimTicket 1) s4).

End Scenario.

Module LuckyBallProofs.
Import LuckyBall.

Section Functions.
Context `{K : Keccak} `{F : FHE}.

Ltac run := unfold emit, allow8, allow32, push_ticket, update_ticket, update_draw,
  require, checked_add, checked_sub, gets, modify, fail;
  unfold mbind, M_bind, mret, M_ret; cbn beta iota.

Lemma _ensureScore_eq env p s : _ensureScore env p s = Ok (tt, ensured env p s).
Proof.
  unfold _ensureScore, ensured. run.
  destruct (initialized s p); reflexivity.
Qed.

Lemma playerTickets_ensured env p s : playerTickets (ensured env p s) = playerTickets s.
Proof. unfold ensured. by destruct (initialized s p). Qed.

Lemma draws_ensured env p s : draws (ensured env p s) = draws s.
Proof. unfold ensured. by destruct (initialized s p). Qed.

Lemma currentDrawId_ensured env p s : currentDrawId (ensured env p s) = currentDrawId s.
Proof. unfold ensured. by destruct (initialized s p). Qed.

Lemma events_ensured env p s : events (ensured env p s) = events s.
Proof. unfold ensured. by destruct (initialized s p). Qed.

Lemma alter_snoc {A} (f : A → A) (l : list A) (x : A) :
  alter f (length l) (l ++ [x]) = l ++ [f x].
Proof.
  rewrite <- (Nat.add_0_r (length l)) at 1. by rewrite alter_app_r.
Qed.

Lemma lookup_snoc {A} (l : list A) (x : A) : (l ++ [x]) !! length l = Some x.
Proof. by rewrite list_lookup_middle. Qed.

Lemma tickets_of_map_tickets p g s : tickets_of (map_tickets p g s) p = g (tickets_of s p).
Proof. unfold tickets_of, map_tickets, with_tickets. cbn. by rewrite lookup_insert_eq. Qed.

Lemma map_tickets_eq p g s :
  map_tickets p g s =
  mkState (<[p := g (tickets_of s p)]> (playerTickets s)) (playerScores s)
          (scoreInitialized s) (draws s) (currentDrawId s) (events s) (acl s).
Proof. reflexivity. Qed.

Lemma map_tickets_twice p g g' s :
  map_tickets p g (map_tickets p g' s) = map_tickets p (λ l, g (g' l)) s.
Proof.
  rewrite (map_tickets_eq p g), tickets_of_map_tickets, !map_tickets_eq. cbn.
  by rewrite insert_insert_eq.
Qed.

Lemma buyTicket_eq env v e pf s :
  buyTicket env v e pf s =
    if negb (v =? TICKET_PRICE) then Revert InvalidPayment
    else if executed (draw_at s (currentDrawId s)) then Revert DrawClosed
    else match fromExternal e pf (msg_sender env) (this env) with
         | None => Revert InvalidProof
         | Some h => Ok (N.of_nat (length (tickets_of s (msg_sender env))), bought env h s)
         end.
Proof.
  unfold buyTicket.
  unfold mbind at 1, M_bind at 1. unfold require at 1.
  destruct (v =? TICKET_PRICE); [|reflexivity].
  run.
  destruct (executed (draw_at s (currentDrawId s))); [reflexivity|].
  cbn [negb].
  destruct (fromExternal e pf (msg_sender env) (this env)) as [h|]; [|reflexivity].
  rewrite _ensureScore_eq.
  set (p := msg_sender env). set (s1 := ensured env p s).
  rewrite tickets_of_map_tickets.
  assert (Hts : tickets_of s1 p = tickets_of s p)
    by (unfold tickets_of, s1; by rewrite playerTickets_ensured).
  rewrite Hts. set (ts := tickets_of s p).
  rewrite length_app, Nat.add_1_r.
  replace (1 <=? N.of_nat (S (length ts))) with true by (symmetry; apply N.leb_le; lia).
  replace (N.of_nat (S (length ts)) - 1) with (N.of_nat (length ts)) by lia.
  unfold ticket_at. rewrite Nat2N.id, tickets_of_map_tickets, Hts. fold ts.
  rewrite lookup_snoc. cbn beta iota.
  rewrite !map_tickets_twice, tickets_of_map_tickets, Hts. fold ts.
  rewrite !alter_snoc, lookup_snoc. cbn beta iota.
  unfold bought. fold p s1 ts. rewrite map_tickets_eq, Hts. fold ts.
  unfold with_acl, with_events. cbn.
  subst s1. rewrite playerTickets_ensured, currentDrawId_ensured, draws_ensured, events_ensured.
  change (default [] (playerTickets s !! p)) with ts. by rewrite !alter_snoc.
Qed.

Lemma draw_at_map_draw id g s : draw_at (map_draw id g s) id = g (draw_at s id).
Proof. unfold draw_at, map_draw, with_draws. cbn. by rewrite lookup_insert_eq. Qed.

Lemma map_draw_eq id g s :
  map_draw id g s =
  mkState (playerTickets s) (playerScores s) (scoreInitialized s)
          (<[id := g (draw_at s id)]> (draws s)) (currentDrawId s) (events s) (acl s).
Proof. reflexivity. Qed.

Lemma map_draw_twice id g g' s :
  map_draw id g (map_draw id g' s) = map_draw id (λ d, g (g' d)) s.
Proof.
  rewrite (map_draw_eq id g), draw_at_map_draw, !map_draw_eq. cbn.
  by rewrite insert_insert_eq.
Qed.

Lemma small_le_MAX_UINT256 n : n ≤ 9 → n ≤ MAX_UINT256.
Proof. intros H. etrans; [exact H|]. by vm_compute. Qed.

Lemma winning_sum_fits (r : N) : (r mod MAX_NUMBER + MIN_NUMBER <=? MAX_UINT256) = true.
Proof.
  apply N.leb_le, small_le_MAX_UINT256. unfold MAX_NUMBER, MIN_NUMBER.
  pose proof (N.mod_lt r 9). lia.
Qed.

Lemma _generateWinningNumber_eq env s :
  _generateWinningNumber env s =
    if 1 <=? block_number env then Ok (winning env (currentDrawId s), s)
    else Revert (Panic 17).
Proof.
  unfold _generateWinningNumber. run.
  destruct (1 <=? block_number env); [|reflexivity].
  by rewrite winning_sum_fits.
Qed.

Lemma executeDraw_eq env s :
  executeDraw env s =
    if executed (draw_at s (currentDrawId s)) then Revert AlreadyResolved
    else if 1 <=? block_number env then
      if currentDrawId s + 1 <=? MAX_UINT256
      then Ok (winning env (currentDrawId s), drawn env s)
      else Revert (Panic 17)
    else Revert (Panic 17).
Proof.
  unfold executeDraw. run.
  destruct (executed (draw_at s (currentDrawId s))); [reflexivity|].
  cbn [negb]. rewrite _generateWinningNumber_eq.
  destruct (1 <=? block_number env); [|reflexivity].
  rewrite !map_draw_twice.
  change (currentDrawId (with_events _ _)) with (currentDrawId s).
  destruct (currentDrawId s + 1 <=? MAX_UINT256); reflexivity.
Qed.

Lemma claimTicket_eq env i s :
  claimTicket env i s =
    match tickets_of s (msg_sender env) !! N.to_nat i with
    | None => Revert InvalidIndex
    | Some t =>
        if claimed t then Revert AlreadyClaimed
        else if executed (draw_at s (drawId t)) then Ok (tt, claimedState env i t s)
        else Revert DrawNotResolved
    end.
Proof.
  unfold claimTicket. run. unfold ticket_at.
  destruct (tickets_of s (msg_sender env) !! N.to_nat i) as [t|] eqn:Ht.
  - pose proof (lookup_lt_Some _ _ _ Ht) as Hlt.
    replace (i <? N.of_nat (length (tickets_of s (msg_sender env)))) with true
      by (symmetry; apply N.ltb_lt; lia).
    cbn beta iota. rewrite Ht. cbn beta iota.
    destruct (claimed t); [reflexivity|]. cbn [negb]. cbn beta iota.
    destruct (executed (draw_at s (drawId t))); reflexivity.
  - apply lookup_ge_None in Ht.
    replace (i <? N.of_nat (length (tickets_of s (msg_sender env)))) with false
      by (symmetry; apply N.ltb_ge; lia).
    reflexivity.
Qed.

(** ** The invariant holds in every reachable state *)

Lemma resolved_ids_app l1 l2 : resolved_ids (l1 ++ l2) = resolved_ids l1 ++ resolved_ids l2.
Proof.
  induction l1 as [|[] l1 IH]; cbn; [done|..]; by rewrite ?IH.
Qed.

Lemma ids_upto_succ n : 1 ≤ n → ids_upto (n - 1) ++ [n] = ids_upto n.
Proof.
  intros Hn. unfold ids_upto.
  replace (N.to_nat n) with (S (N.to_nat (n - 1))) by lia.
  rewrite seq_S, map_app. cbn. do 2 f_equal. lia.
Qed.

Lemma invariant_constructor env : invariant (constructor env).
Proof.
  split; cbn.
  - split; [done|]. by vm_compute.
  - intros id. rewrite <- elem_of_dom, dom_singleton_L, elem_of_singleton. lia.
  - intros id d [<- <-]%lookup_singleton_Some. cbn. split; [done|lia].
  - by intros id d [<- <-]%lookup_singleton_Some.
  - intros p i t. unfold tickets_of. cbn. by rewrite lookup_empty.
  - intros p i t. unfold tickets_of. cbn. by rewrite lookup_empty.
  - intros p. unfold initialized, tickets_of. cbn. by rewrite !lookup_empty.
  - intros p _. apply lookup_empty.
  - done.
Qed.

(** *** Reads of the storage after each function *)

Lemma tickets_of_insert (m : gmap address (list Ticket)) sc ini dr cur ev ac p l q :
  tickets_of (mkState (<[p := l]> m) sc ini dr cur ev ac) q =
  if decide (q = p) then l else default [] (m !! q).
Proof.
  unfold tickets_of. cbn. rewrite lookup_insert.
  destruct (decide (p = q)), (decide (q = p)); cbn; first [congruence | done].
Qed.

Lemma tickets_of_bought env h s q :
  tickets_of (bought env h s) q =
  if decide (q = msg_sender env)
  then tickets_of s q ++ [mkTicket h (currentDrawId s) false]
  else tickets_of s q.
Proof.
  unfold bought. rewrite tickets_of_insert. by case_decide; subst.
Qed.

Lemma tickets_of_claimedState env i t s q :
  tickets_of (claimedState env i t s) q =
  if decide (q = msg_sender env)
  then alter (set_claimed true) (N.to_nat i) (tickets_of s q)
  else tickets_of s q.
Proof.
  unfold claimedState. rewrite tickets_of_insert. by case_decide; subst.
Qed.

Lemma initialized_ensured env p s q :
  initialized (ensured env p s) q = if decide (q = p) then true else initialized s q.
Proof.
  unfold ensured. destruct (initialized s p) eqn:Hp.
  - case_decide; by subst.
  - unfold initialized. cbn. rewrite lookup_insert.
    destruct (decide (p = q)), (decide (q = p)); cbn; first [congruence | done].
Qed.

Lemma playerScores_ensured_other env p s q :
  q ≠ p → playerScores (ensured env p s) !! q = playerScores s !! q.
Proof.
  intros Hq. unfold ensured. destruct (initialized s p); [done|].
  cbn. by rewrite lookup_insert_ne.
Qed.

Lemma playerScores_ensured_fresh env p s :
  initialized s p = false → playerScores (ensured env p s) !! p = Some (asEuint32 0).
Proof. intros Hp. unfold ensured. rewrite Hp. cbn. apply lookup_insert_eq. Qed.

Lemma playerScores_ensured_set env p s :
  initialized s p = true → playerScores (ensured env p s) = playerScores s.
Proof. intros Hp. unfold ensured. by rewrite Hp. Qed.

Lemma lookup_snoc_Some {A} (l : list A) (x y : A) i :
  (l ++ [x]) !! i = Some y → l !! i = Some y ∨ (i = length l ∧ y = x).
Proof.
  intros H. apply lookup_app_Some in H as [H|[Hi H]]; [by left|right].
  destruct (i - length l)%nat as [|k] eqn:Hk; [|by destruct k].
  cbn in H. injection H as <-. split; [lia|done].
Qed.

Lemma lookup_alter_Some {A} (f : A → A) (l : list A) i j (y : A) :
  alter f i l !! j = Some y →
  (j ≠ i ∧ l !! j = Some y) ∨ (j = i ∧ ∃ x, l !! j = Some x ∧ y = f x).
Proof.
  destruct (decide (i = j)) as [->|Hne].
  - rewrite list_lookup_alter_eq. destruct (l !! j) as [x|]; [|done].
    cbn. intros [= <-]. right. eauto.
  - rewrite list_lookup_alter_ne by done. intros H. left. split; [congruence|done].
Qed.

Lemma initialized_bought env h s q :
  initialized (bought env h s) q =
  if decide (q = msg_sender env) then true else initialized s q.
Proof. apply (initialized_ensured env (msg_sender env) s q). Qed.

Lemma winning_formula env cur :
  winning env cur = uint256 (keccak256 (seed env cur)) mod 9 + 1.
Proof.
  unfold winning, uint8, MAX_NUMBER, MIN_NUMBER.
  apply N.mod_small.
  pose proof (N.mod_lt (uint256 (keccak256 (seed env cur))) 9).
  change (2 ^ 8) with 256. lia.
Qed.

Lemma winning_range env cur : 1 ≤ winning env cur ≤ 9.
Proof.
  rewrite winning_formula.
  assert (uint256 (keccak256 (seed env cur)) mod 9 < 9) as H by by apply N.mod_lt.
  revert H. generalize (uint256 (keccak256 (seed env cur)) mod 9). lia.
Qed.

Lemma draw_at_executed s id :
  executed (draw_at s id) = true →
  ∃ d, draws s !! id = Some d ∧ executed d = true.
Proof.
  unfold draw_at. destruct (draws s !! id) as [d|]; cbn; [eauto|done].
Qed.

(** *** Each function preserves the invariant *)

Lemma invariant_bought env h s : invariant s → invariant (bought env h s).
Proof.
  intros I. split.
  - apply (inv_current s I).
  - apply (inv_created s I).
  - apply (inv_executed s I).
  - apply (inv_winning s I).
  - intros q i t. rewrite tickets_of_bought. case_decide.
    + intros [Hi|[_ ->]]%lookup_snoc_Some; [exact (inv_bound s I q i t Hi)|].
      cbn. pose proof (inv_current s I). lia.
    + exact (inv_bound s I q i t).
  - intros q i t. rewrite tickets_of_bought. case_decide.
    + intros [Hi|[_ ->]]%lookup_snoc_Some; [exact (inv_claimed s I q i t Hi)|done].
    + exact (inv_claimed s I q i t).
  - intros q. rewrite initialized_bought, tickets_of_bought. case_decide.
    + split; [done|]. by intros [_ ?]%app_eq_nil.
    + apply (inv_score s I).
  - intros q. rewrite initialized_bought. case_decide; [done|]. intros Hq.
    change (playerScores (bought env h s)) with (playerScores (ensured env (msg_sender env) s)).
    rewrite playerScores_ensured_other by done. by apply (inv_unset s I).
  - change (events (bought env h s)) with
      (events s ++ [TicketPurchased (msg_sender env) (currentDrawId s)
                      (N.of_nat (length (tickets_of s (msg_sender env))))]).
    rewrite resolved_ids_app. cbn. rewrite app_nil_r. apply (inv_log s I).
Qed.

Lemma invariant_drawn env s :
  invariant s → currentDrawId s + 1 ≤ MAX_UINT256 → invariant (drawn env s).
Proof.
  intros I Hfit. pose proof (inv_current s I) as Hcur.
  split; cbn [drawn currentDrawId draws events].
  - lia.
  - intros id. rewrite !lookup_insert_is_Some, (inv_created s I id). lia.
  - intros id d. rewrite !lookup_insert_Some.
    intros [[<- <-]|[? [[<- <-]|[? Hd]]]]; cbn; [split; [done|lia]|split; [lia|done]|].
    rewrite (inv_executed s I id d Hd).
    assert (is_Some (draws s !! id)) as Hs%(inv_created s I) by eauto. lia.
  - intros id d. rewrite !lookup_insert_Some.
    intros [[<- <-]|[? [[<- <-]|[? Hd]]]]; cbn; [done|apply winning_range|].
    by apply (inv_winning s I id d).
  - intros q i t Ht. pose proof (inv_bound s I q i t Ht). lia.
  - intros q i t Ht Hc. pose proof (inv_claimed s I q i t Ht Hc). lia.
  - apply (inv_score s I).
  - apply (inv_unset s I).
  - rewrite resolved_ids_app, (inv_log s I). cbn.
    replace (currentDrawId s + 1 - 1) with (currentDrawId s) by lia.
    apply ids_upto_succ. lia.
Qed.

Lemma invariant_claimedState env i t s :
  invariant s →
  tickets_of s (msg_sender env) !! N.to_nat i = Some t →
  executed (draw_at s (drawId t)) = true →
  invariant (claimedState env i t s).
Proof.
  intros I Ht Hex.
  assert (drawId t < currentDrawId s) as Hlt.
  { apply draw_at_executed in Hex as (d & Hd & Hex).
    by apply (inv_executed s I _ d Hd). }
  assert (initialized s (msg_sender env) = true) as Hinit.
  { destruct (initialized s (msg_sender env)) eqn:E; [done|].
    apply (inv_score s I) in E. by rewrite E in Ht. }
  split.
  - apply (inv_current s I).
  - apply (inv_created s I).
  - apply (inv_executed s I).
  - apply (inv_winning s I).
  - intros q j u. rewrite tickets_of_claimedState. case_decide.
    + intros [[_ Hu]|[_ (x & Hx & ->)]]%lookup_alter_Some.
      * exact (inv_bound s I q j u Hu).
      * exact (inv_bound s I q j x Hx).
    + exact (inv_bound s I q j u).
  - intros q j u. rewrite tickets_of_claimedState. case_decide.
    + intros [[_ Hu]|[-> (x & Hx & ->)]]%lookup_alter_Some.
      * exact (inv_claimed s I q j u Hu).
      * subst q. intros _. cbn. rewrite Ht in Hx. by injection Hx as <-.
    + exact (inv_claimed s I q j u).
  - intros q. rewrite tickets_of_claimedState. case_decide.
    + change (initialized (claimedState env i t s) q) with (initialized s q).
      rewrite (inv_score s I q). split.
      * by intros ->.
      * intros E. apply (f_equal length) in E. rewrite length_alter in E.
        by apply nil_length_inv.
    + apply (inv_score s I).
  - intros q Hq. cbn. rewrite lookup_insert_ne; [by apply (inv_unset s I)|].
    intros <-. change (initialized (claimedState env i t s) (msg_sender env))
      with (initialized s (msg_sender env)) in Hq. congruence.
  - change (events (claimedState env i t s)) with
      (events s ++ [TicketClaimProcessed (msg_sender env) (drawId t) i]).
    rewrite resolved_ids_app. cbn. rewrite app_nil_r. apply (inv_log s I).
Qed.

Lemma invariant_transact env c s s' :
  invariant s → transact env c s = Ok s' → invariant s'.
Proof.
  intros I. destruct c as [v e pf| |i]; cbn.
  - rewrite buyTicket_eq.
    destruct (negb (v =? TICKET_PRICE)); [done|].
    destruct (executed (draw_at s (currentDrawId s))); [done|].
    destruct (fromExternal e pf (msg_sender env) (this env)) as [h|]; [|done].
    cbn. intros [= <-]. by apply invariant_bought.
  - rewrite executeDraw_eq.
    destruct (executed (draw_at s (currentDrawId s))); [done|].
    destruct (1 <=? block_number env); [|done].
    destruct (currentDrawId s + 1 <=? MAX_UINT256) eqn:Hfit; [|done].
    cbn. intros [= <-]. apply invariant_drawn; [done|]. by apply N.leb_le.
  - rewrite claimTicket_eq.
    destruct (tickets_of s (msg_sender env) !! N.to_nat i) as [t|] eqn:Ht; [|done].
    destruct (claimed t); [done|].
    destruct (executed (draw_at s (drawId t))) eqn:Hex; [|done].
    cbn. intros [= <-]. by apply invariant_claimedState.
Qed.

Lemma reachable_invariant s : reachable s → invariant s.
Proof.
  induction 1 as [env|s env c s' _ IH Htx].
  - apply invariant_constructor.
  - by eapply invariant_transact.
Qed.

(** *** Inversion of successful calls *)

Lemma buyTicket_Ok env v e pf s i s' :
  buyTicket env v e pf s = Ok (i, s') →
  v = TICKET_PRICE ∧ executed (draw_at s (currentDrawId s)) = false ∧
  ∃ h, fromExternal e pf (msg_sender env) (this env) = Some h ∧
       i = N.of_nat (length (tickets_of s (msg_sender env))) ∧ s' = bought env h s.
Proof.
  rewrite buyTicket_eq.
  destruct (v =? TICKET_PRICE) eqn:Hv; [|done]. apply N.eqb_eq in Hv.
  destruct (executed (draw_at s (currentDrawId s))); [done|].
  destruct (fromExternal e pf (msg_sender env) (this env)) as [h|]; [|done].
  cbn. intros [= <- <-]. eauto 6.
Qed.

Lemma executeDraw_Ok env s w s' :
  executeDraw env s = Ok (w, s') →
  executed (draw_at s (currentDrawId s)) = false ∧ in_block env ∧
  currentDrawId s + 1 ≤ MAX_UINT256 ∧
  w = winning env (currentDrawId s) ∧ s' = drawn env s.
Proof.
  rewrite executeDraw_eq.
  destruct (executed (draw_at s (currentDrawId s))); [done|].
  destruct (1 <=? block_number env) eqn:Hb; [|done]. apply N.leb_le in Hb.
  destruct (currentDrawId s + 1 <=? MAX_UINT256) eqn:Hfit; [|done].
  apply N.leb_le in Hfit. by intros [= <- <-].
Qed.

Lemma claimTicket_Ok env i s u s' :
  claimTicket env i s = Ok (u, s') →
  ∃ t, tickets_of s (msg_sender env) !! N.to_nat i = Some t ∧ claimed t = false ∧
       executed (draw_at s (drawId t)) = true ∧ s' = claimedState env i t s.
Proof.
  rewrite claimTicket_eq.
  destruct (tickets_of s (msg_sender env) !! N.to_nat i) as [t|]; [|done].
  destruct (claimed t) eqn:Hc; [done|].
  destruct (executed (draw_at s (drawId t))) eqn:Hex; [|done].
  intros [= <-]. eauto.
Qed.

Lemma transact_Ok env c s s' :
  transact env c s = Ok s' →
  match c with
  | BuyTicket v e pf => ∃ i, buyTicket env v e pf s = Ok (i, s')
  | ExecuteDraw => ∃ w, executeDraw env s = Ok (w, s')
  | ClaimTicket i => claimTicket env i s = Ok (tt, s')
  end.
Proof.
  destruct c as [v e pf| |i]; cbn.
  - destruct (buyTicket env v e pf s) as [[i s1]|]; [|done]. intros [= <-]. eauto.
  - destruct (executeDraw env s) as [[w s1]|]; [|done]. intros [= <-]. eauto.
  - destruct (claimTicket env i s) as [[[] s1]|]; [|done]. by intros [= <-].
Qed.

(** *** Tickets and resolved draws are stable *)

Lemma transact_ticket_stable env c s s' p i t :
  transact env c s = Ok s' → tickets_of s p !! i = Some t →
  ∃ t', tickets_of s' p !! i = Some t' ∧ number t' = number t ∧
        drawId t' = drawId t ∧ (claimed t = true → claimed t' = true).
Proof.
  intros Htx Ht. apply transact_Ok in Htx. destruct c as [v e pf| |j].
  - destruct Htx as [k (_ & _ & h & _ & _ & ->)%buyTicket_Ok].
    exists t. rewrite tickets_of_bought. case_decide; [|done].
    by rewrite lookup_app_l by by eapply lookup_lt_Some.
  - destruct Htx as [w (_ & _ & _ & _ & ->)%executeDraw_Ok]. by exists t.
  - apply claimTicket_Ok in Htx as (u & Hu & _ & _ & ->).
    rewrite tickets_of_claimedState. case_decide; [|by exists t].
    destruct (decide (N.to_nat j = i)) as [<-|Hne].
    + exists (set_claimed true t). by rewrite list_lookup_alter_eq, Ht.
    + exists t. by rewrite list_lookup_alter_ne.
Qed.

Lemma later_ticket_stable s s' p i t :
  later s s' → tickets_of s p !! i = Some t →
  ∃ t', tickets_of s' p !! i = Some t' ∧ number t' = number t ∧
        drawId t' = drawId t ∧ (claimed t = true → claimed t' = true).
Proof.
  induction 1 as [s|s s1 env c s2 _ IH Htx]; intros Ht; [by exists t|].
  destruct (IH Ht) as (t1 & Ht1 & Hn & Hd & Hc).
  destruct (transact_ticket_stable _ _ _ _ _ _ _ Htx Ht1) as (t2 & Ht2 & Hn2 & Hd2 & Hc2).
  exists t2. repeat split; [done|congruence|congruence|auto].
Qed.

Lemma later_reachable s s' : reachable s → later s s' → reachable s'.
Proof.
  intros Hs. induction 1 as [|s s1 env c s2 _ IH Htx]; [done|].
  eapply reachable_tx; [by apply IH|done].
Qed.

Lemma transact_draw_stable env c s s' id d :
  invariant s → transact env c s = Ok s' →
  draws s !! id = Some d → executed d = true → draws s' !! id = Some d.
Proof.
  intros I Htx Hd Hex. apply transact_Ok in Htx. destruct c as [v e pf| |j].
  - by destruct Htx as [k (_ & _ & h & _ & _ & ->)%buyTicket_Ok].
  - destruct Htx as [w (_ & _ & _ & _ & ->)%executeDraw_Ok].
    apply (inv_executed s I id d Hd) in Hex. cbn.
    rewrite !lookup_insert_ne by lia. done.
  - by apply claimTicket_Ok in Htx as (u & _ & _ & _ & ->).
Qed.

Lemma later_draw_stable s s' id d :
  reachable s → later s s' →
  draws s !! id = Some d → executed d = true → draws s' !! id = Some d.
Proof.
  intros Hs Hl Hd Hex. induction Hl as [|s s1 env c s2 Hl IH Htx]; [done|].
  apply (transact_draw_stable env c s1 s2 id d); [|done|by apply IH|done].
  apply reachable_invariant. by apply (later_reachable s).
Qed.

Lemma ids_upto_sorted n : StronglySorted N.lt (ids_upto n).
Proof.
  unfold ids_upto. generalize 1%nat as a. generalize (N.to_nat n) as k.
  induction k as [|k IH]; intros a; cbn; constructor; [apply IH|].
  apply Forall_forall. intros x. rewrite list_elem_of_In, in_map_iff.
  intros (j & <- & Hj%in_seq). lia.
Qed.

End Functions.

(** ** The claims *)

Section Claims.
Context `{K : Keccak} `{F : FHE}.

(** C1. Reward correctness.  A successful [claimTicket] on a ticket [t]
    bound to the executed draw [d] adds [WIN_REWARD] = 10 to the caller's
    score when the ticket's number equals the draw's winning number (in
    [euint32] arithmetic, so exactly 10 as long as the sum fits 32 bits), and
    leaves the cleartext score as it was otherwise; in both cases the ticket
    is marked claimed and [TicketClaimProcessed] is appended to the log. *)
Theorem claimTicket_reward env i s s' :
  reachable s →
  claimTicket env i s = Ok (tt, s') →
  let p := msg_sender env in
  ∃ t d,
    tickets_of s p !! N.to_nat i = Some t ∧
    draws s !! drawId t = Some d ∧ executed d = true ∧
    (clear8 (number t) = winningNumber d →
       clear32 (score_of s' p) = (clear32 (score_of s p) + WIN_REWARD) mod 2 ^ 32 ∧
       (clear32 (score_of s p) + WIN_REWARD < 2 ^ 32 →
          clear32 (score_of s' p) = clear32 (score_of s p) + WIN_REWARD)) ∧
    (clear8 (number t) ≠ winningNumber d →
       clear32 (score_of s' p) = clear32 (score_of s p)) ∧
    tickets_of s' p !! N.to_nat i = Some (set_claimed true t) ∧
    claimed (set_claimed true t) = true ∧
    events s' = events s ++ [TicketClaimProcessed p (drawId t) i].
Proof.
  intros Hs Hc p. subst p. pose proof (reachable_invariant s Hs) as I.
  apply claimTicket_Ok in Hc as (t & Ht & Hcl & Hex & ->).
  pose proof Hex as (d & Hd & Hexd)%draw_at_executed.
  exists t, d. split; [done|]. split; [done|]. split; [done|].
  set (p := msg_sender env) in *.
  assert (score_of (claimedState env i t s) p = next_score s p t) as ->.
  { unfold score_of, claimedState. cbn. by rewrite lookup_insert_eq. }
  assert (draw_at s (drawId t) = d) as Hdraw by (unfold draw_at; by rewrite Hd).
  assert (winningNumber d mod 2 ^ 8 = winningNumber d) as Hw.
  { apply N.mod_small. pose proof (inv_winning s I _ d Hd) as Hr.
    rewrite Hexd in Hr. change (2 ^ 8) with 256. lia. }
  assert (clear32 (asEuint32 WIN_REWARD) = WIN_REWARD) as Hten.
  { rewrite clear_asEuint32. by apply N.mod_small. }
  unfold next_score. rewrite clear_select, clear_eq, clear_add, clear_asEuint8, Hdraw, Hw, Hten.
  split; [|split; [|split; [|done]]].
  - intros ->. rewrite N.eqb_refl. split; [done|].
    intros Hfit. by apply N.mod_small.
  - intros Hne. by apply N.eqb_neq in Hne as ->.
  - rewrite tickets_of_claimedState, decide_True by done.
    by rewrite list_lookup_alter_eq, Ht.
Qed.

(** C2. Outcomes of [claimTicket].  In a reachable state the call fails with
    InvalidIndex exactly when the index is at or beyond the caller's ticket
    count; for an existing ticket it fails with AlreadyClaimed exactly when
    the ticket is claimed, with DrawNotResolved exactly when its draw is not
    executed, and succeeds otherwise.  After a successful claim every later
    claim of the same (player, index) fails with AlreadyClaimed and the
    transaction leaves the storage as it was. *)
Theorem claimTicket_outcome env i s :
  reachable s →
  let p := msg_sender env in
  (claimTicket env i s = Revert InvalidIndex ↔ N.of_nat (length (tickets_of s p)) ≤ i) ∧
  (∀ t, tickets_of s p !! N.to_nat i = Some t →
     (claimTicket env i s = Revert AlreadyClaimed ↔ claimed t = true) ∧
     (claimTicket env i s = Revert DrawNotResolved ↔ executed (draw_at s (drawId t)) = false) ∧
     (claimed t = false → executed (draw_at s (drawId t)) = true →
        ∃ s', claimTicket env i s = Ok (tt, s'))) ∧
  (∀ s' s'' env',
     claimTicket env i s = Ok (tt, s') → later s' s'' → msg_sender env' = p →
     claimTicket env' i s'' = Revert AlreadyClaimed ∧
     commit s'' (transact env' (ClaimTicket i) s'') = s'' ∧
     score_of (commit s'' (transact env' (ClaimTicket i) s'')) p = score_of s'' p).
Proof.
  intros Hs p. subst p. pose proof (reachable_invariant s Hs) as I.
  split; [|split].
  - rewrite claimTicket_eq.
    destruct (tickets_of s (msg_sender env) !! N.to_nat i) as [t|] eqn:Ht.
    + pose proof (lookup_lt_Some _ _ _ Ht). split; [|lia].
      destruct (claimed t); [done|]. by destruct (executed (draw_at s (drawId t))).
    + apply lookup_ge_None in Ht. split; [lia|done].
  - intros t Ht. rewrite claimTicket_eq. rewrite Ht.
    destruct (claimed t) eqn:Hc.
    + assert (executed (draw_at s (drawId t)) = true) as ->.
      { pose proof (inv_claimed s I _ _ t Ht Hc) as Hlt.
        pose proof (inv_bound s I _ _ t Ht) as Hb.
        destruct (proj2 (inv_created s I (drawId t)) Hb) as [d Hd].
        unfold draw_at. rewrite Hd. cbn. by apply (inv_executed s I _ d Hd). }
      repeat split; done.
    + destruct (executed (draw_at s (drawId t))); repeat split; try done; eauto.
  - intros s' s'' env' Hok Hlater Hsender.
    apply claimTicket_Ok in Hok as (t & Ht & _ & _ & ->).
    assert (tickets_of (claimedState env i t s) (msg_sender env) !! N.to_nat i = Some (set_claimed true t)) as Ht'.
    { rewrite tickets_of_claimedState, decide_True by done.
      by rewrite list_lookup_alter_eq, Ht. }
    destruct (later_ticket_stable _ _ _ _ _ Hlater Ht') as (t2 & Ht2 & _ & _ & Hc2).
    assert (claimTicket env' i s'' = Revert AlreadyClaimed) as Hfail.
    { rewrite claimTicket_eq, Hsender, Ht2, Hc2; done. }
    split; [done|]. cbn. by rewrite Hfail.
Qed.

(** C3. The draw registry.  In a reachable state the draws that exist are
    those with ids 1..currentDrawId; the one at [currentDrawId] is unresolved
    and it is the only one; the log resolves the ids 1, 2, ..,
    currentDrawId - 1 in this order, strictly increasing, so none twice; a
    resolved draw is never written again; and a successful [executeDraw]
    marks draw N executed and creates the unresolved draw N + 1, which
    becomes the current one. *)
Theorem draw_registry s :
  reachable s →
  (∃ d, draws s !! currentDrawId s = Some d ∧ executed d = false) ∧
  (∀ id d, draws s !! id = Some d → executed d = false → id = currentDrawId s) ∧
  (∀ id, is_Some (draws s !! id) ↔ 1 ≤ id ≤ currentDrawId s) ∧
  resolved_ids (events s) = ids_upto (currentDrawId s - 1) ∧
  StronglySorted N.lt (resolved_ids (events s)) ∧
  (∀ s' id d, later s s' →
     draws s !! id = Some d → executed d = true → draws s' !! id = Some d) ∧
  (∀ env w s', executeDraw env s = Ok (w, s') →
     draws s !! (currentDrawId s + 1) = None ∧
     draws s' !! currentDrawId s = Some (mkDraw w (block_timestamp env) true) ∧
     draws s' !! (currentDrawId s + 1) = Some (mkDraw 0 (block_timestamp env) false) ∧
     currentDrawId s' = currentDrawId s + 1 ∧
     (∀ id, id ≠ currentDrawId s → id ≠ currentDrawId s + 1 →
        draws s' !! id = draws s !! id) ∧
     events s' = events s ++ [DrawExecuted (currentDrawId s) w]).
Proof.
  intros Hs. pose proof (reachable_invariant s Hs) as I.
  pose proof (inv_current s I) as Hcur.
  assert (∀ id d, draws s !! id = Some d → 1 ≤ id ≤ currentDrawId s) as Hdom.
  { intros id d Hd. apply (inv_created s I). eauto. }
  repeat apply conj.
  - destruct (proj2 (inv_created s I (currentDrawId s))) as [d Hd]; [lia|].
    exists d. split; [done|]. destruct (executed d) eqn:E; [|done].
    apply (inv_executed s I _ d Hd) in E. lia.
  - intros id d Hd Hex. pose proof (Hdom id d Hd).
    destruct (decide (id = currentDrawId s)) as [|Hne]; [done|].
    assert (id < currentDrawId s) as Hlt%(inv_executed s I id d Hd) by lia. congruence.
  - apply (inv_created s I).
  - apply (inv_log s I).
  - rewrite (inv_log s I). apply ids_upto_sorted.
  - intros s' id d Hlater. by apply later_draw_stable.
  - intros env w s' (_ & _ & _ & -> & ->)%executeDraw_Ok. cbn.
    rewrite lookup_insert_ne by lia. rewrite !lookup_insert_eq.
    repeat apply conj; try done.
    + apply eq_None_not_Some. rewrite (inv_created s I). lia.
    + intros id H1 H2. by rewrite !lookup_insert_ne.
Qed.

(** C4 (amended). [getDraw] never fails.  For an id that was never created
    (zero, or above [currentDrawId]) it returns the zero draw: winning
    number 0, timestamp 0, not executed.  For a created id it returns the
    stored draw. *)
Theorem getDraw_total s id :
  reachable s →
  (id = 0 ∨ currentDrawId s < id →
     draws s !! id = None ∧ getDraw id s = Ok (zeroDraw, s)) ∧
  (1 ≤ id ≤ currentDrawId s →
     ∃ d, draws s !! id = Some d ∧ getDraw id s = Ok (d, s)).
Proof.
  intros Hs. pose proof (reachable_invariant s Hs) as I.
  unfold getDraw, gets, draw_at. split.
  - intros Hid. assert (draws s !! id = None) as ->; [|done].
    apply eq_None_not_Some. rewrite (inv_created s I). lia.
  - intros [d Hd]%(inv_created s I). exists d. by rewrite Hd.
Qed.

(** C5. Exact payment.  With a payment different from [TICKET_PRICE], above
    or below, [buyTicket] reverts with InvalidPayment and does not succeed;
    the transaction leaves the storage as it was, so no ticket is created,
    the ticket count is the same and no score is initialised. *)
Theorem buyTicket_wrong_payment env v e pf s :
  v ≠ TICKET_PRICE →
  buyTicket env v e pf s = Revert InvalidPayment ∧
  (¬ ∃ i s', buyTicket env v e pf s = Ok (i, s')) ∧
  let s' := commit s (transact env (BuyTicket v e pf) s) in
  s' = s ∧
  (∀ p, tickets_of s' p = tickets_of s p) ∧
  (∀ p, totalTickets p s' = totalTickets p s) ∧
  (∀ p, initialized s' p = initialized s p ∧ score_of s' p = score_of s p).
Proof.
  intros Hv.
  assert (buyTicket env v e pf s = Revert InvalidPayment) as Hfail.
  { rewrite buyTicket_eq. by apply N.eqb_neq in Hv as ->. }
  split; [done|]. split.
  - intros (i & s' & Hok). congruence.
  - cbn. by rewrite Hfail.
Qed.

(** C6. Ticket count.  A successful [buyTicket] returns the caller's ticket
    count before the call, and afterwards the count is one more; the new
    ticket sits at the returned index, holds the imported number, is bound
    to the current draw, which is not executed, and is unclaimed; the earlier
    tickets and the other players' tickets are as before.  A purchase that
    reverts leaves the count as it was. *)
Theorem buyTicket_count env v e pf s :
  let p := msg_sender env in
  (∀ i s', buyTicket env v e pf s = Ok (i, s') →
     totalTickets p s = Ok (i, s) ∧
     totalTickets p s' = Ok (i + 1, s') ∧
     (∃ h, fromExternal e pf p (this env) = Some h ∧
           tickets_of s' p = tickets_of s p ++ [mkTicket h (currentDrawId s) false]) ∧
     (∃ t, tickets_of s' p !! N.to_nat i = Some t ∧
           drawId t = currentDrawId s ∧ claimed t = false) ∧
     currentDrawId s' = currentDrawId s ∧
     executed (draw_at s (currentDrawId s)) = false ∧
     (∀ q, q ≠ p → tickets_of s' q = tickets_of s q)) ∧
  (∀ f, buyTicket env v e pf s = Revert f →
     ∀ q, totalTickets q (commit s (transact env (BuyTicket v e pf) s)) = totalTickets q s).
Proof.
  intros p. subst p. split.
  - intros i s' (_ & Hopen & h & Hh & -> & ->)%buyTicket_Ok.
    unfold totalTickets, gets. rewrite !tickets_of_bought, decide_True by done.
    rewrite length_app, Nat2N.id, lookup_snoc. cbn [length].
    repeat apply conj; try done.
    + do 2 f_equal. lia.
    + by exists h.
    + by eexists.
    + intros q Hq. by rewrite tickets_of_bought, decide_False.
  - intros f Hf q. cbn. by rewrite Hf.
Qed.

(** C7. The winning number.  A successful [executeDraw] returns
    (uint256(keccak256(seed)) mod 9) + 1 for the seed packed from the block
    and the current draw id, which is what [_generateWinningNumber]
    returns; it lies in 1..9; the same number is stored in the resolved draw
    and carried by the [DrawExecuted] event. *)
Theorem executeDraw_winning_number env s w s' :
  executeDraw env s = Ok (w, s') →
  let cur := currentDrawId s in
  _generateWinningNumber env s = Ok (w, s) ∧
  w = uint256 (keccak256 (seed env cur)) mod 9 + 1 ∧
  1 ≤ w ≤ 9 ∧
  draws s' !! cur = Some (mkDraw w (block_timestamp env) true) ∧
  winningNumber (draw_at s' cur) = w ∧
  events s' = events s ++ [DrawExecuted cur w].
Proof.
  intros (_ & Hb & _ & -> & ->)%executeDraw_Ok cur. subst cur.
  assert (draws (drawn env s) !! currentDrawId s =
          Some (mkDraw (winning env (currentDrawId s)) (block_timestamp env) true)) as Hd.
  { cbn. rewrite lookup_insert_ne by lia. apply lookup_insert_eq. }
  repeat apply conj.
  - rewrite _generateWinningNumber_eq. by apply N.leb_le in Hb as ->.
  - apply winning_formula.
  - apply winning_range.
  - apply winning_range.
  - done.
  - unfold draw_at. by rewrite Hd.
  - done.
Qed.

(** C8. A fresh system.  After the constructor the only draw is draw 1,
    unresolved, and [currentDrawId] is 1; every player's score reads as the
    uninitialised handle, which is not an initialised value and stands for
    0.  In any reachable state a player who has bought nothing still reads
    the uninitialised handle, and that player's first successful purchase
    sets the score to an encryption of zero. *)
Theorem fresh_system env :
  let s0 := constructor env in
  draws s0 = {[ 1 := mkDraw 0 (block_timestamp env) false ]} ∧
  (∀ id, is_Some (draws s0 !! id) ↔ id = 1) ∧
  executed (draw_at s0 1) = false ∧
  currentDrawId s0 = 1 ∧
  (∀ p, getScore p s0 = Ok (uninit32, s0)) ∧
  isInitialized32 uninit32 = false ∧
  clear32 uninit32 = 0 ∧
  (∀ s p, reachable s → tickets_of s p = [] →
     initialized s p = false ∧ getScore p s = Ok (uninit32, s)) ∧
  (∀ s env' v e pf i s',
     reachable s → tickets_of s (msg_sender env') = [] →
     buyTicket env' v e pf s = Ok (i, s') →
     i = 0 ∧
     initialized s' (msg_sender env') = true ∧
     score_of s' (msg_sender env') = asEuint32 0 ∧
     isInitialized32 (score_of s' (msg_sender env')) = true ∧
     clear32 (score_of s' (msg_sender env')) = 0).
Proof.
  intros s0. subst s0. repeat apply conj; try done.
  - intros id. cbn. rewrite <- elem_of_dom, dom_singleton_L. set_solver.
  - apply uninit32_not_initialized.
  - apply clear_uninit32.
  - intros s p Hs Hnone. pose proof (reachable_invariant s Hs) as I.
    apply (inv_score s I) in Hnone as Hinit. split; [done|].
    unfold getScore, gets, score_of. by rewrite (inv_unset s I p Hinit).
  - intros s env' v e pf i s' Hs Hnone Hbuy.
    pose proof (reachable_invariant s Hs) as I.
    apply (inv_score s I) in Hnone as Hinit.
    apply buyTicket_Ok in Hbuy as (_ & _ & h & _ & -> & ->).
    assert (score_of (bought env' h s) (msg_sender env') = asEuint32 0) as Hscore.
    { unfold score_of.
      change (playerScores (bought env' h s))
        with (playerScores (ensured env' (msg_sender env') s)).
      by rewrite playerScores_ensured_fresh. }
    rewrite Hscore, initialized_bought, decide_True by done.
    rewrite Hnone, asEuint32_initialized, clear_asEuint32. done.
Qed.

(** C9. Ticket frame.  Across any successful transaction every existing
    ticket keeps its place, its number and its draw id, and a claimed ticket
    stays claimed, so no ticket is deleted.  A successful [claimTicket]
    changes, in the ticket ledger, only the claimed flag of the ticket at
    the given index of the caller, and, in the score ledger, only the
    caller's score: every other ticket, every other player's score, the
    initialisation flags, all draws and [currentDrawId] are as before. *)
Theorem ticket_frame env c s s' :
  transact env c s = Ok s' →
  (∀ p j t, tickets_of s p !! j = Some t →
     ∃ t', tickets_of s' p !! j = Some t' ∧ number t' = number t ∧
           drawId t' = drawId t ∧ (claimed t = true → claimed t' = true)) ∧
  (∀ p, (length (tickets_of s p) ≤ length (tickets_of s' p))%nat) ∧
  (∀ i, c = ClaimTicket i →
     let p := msg_sender env in
     (∃ t, tickets_of s p !! N.to_nat i = Some t ∧ claimed t = false ∧
           tickets_of s' p = <[N.to_nat i := set_claimed true t]> (tickets_of s p)) ∧
     (∀ q j, (q, j) ≠ (p, N.to_nat i) → tickets_of s' q !! j = tickets_of s q !! j) ∧
     (∀ q, q ≠ p → playerScores s' !! q = playerScores s !! q) ∧
     (∀ q, q ≠ p → score_of s' q = score_of s q) ∧
     scoreInitialized s' = scoreInitialized s ∧
     draws s' = draws s ∧
     currentDrawId s' = currentDrawId s).
Proof.
  intros Htx. split; [|split].
  - intros p j t. by apply (transact_ticket_stable env c).
  - intros p. apply Nat.nlt_ge. intros Hlt.
    destruct (lookup_lt_is_Some_2 (tickets_of s p) (length (tickets_of s' p)) Hlt)
      as [t Ht].
    destruct (transact_ticket_stable env c s s' p _ t Htx Ht) as (t' & Ht' & _).
    apply lookup_lt_Some in Ht'. lia.
  - intros i -> p. subst p. cbn in Htx.
    destruct (claimTicket env i s) as [[[] s1]|] eqn:Hc; [|done].
    injection Htx as ->.
    apply claimTicket_Ok in Hc as (t & Ht & Hcl & _ & ->).
    repeat apply conj; try done.
    + exists t. split; [done|]. split; [done|].
      rewrite tickets_of_claimedState, decide_True by done.
      apply list_eq. intros j. destruct (decide (N.to_nat i = j)) as [<-|Hne].
      * rewrite list_lookup_alter_eq, Ht. cbn.
        by rewrite list_lookup_insert_eq by by eapply lookup_lt_Some.
      * by rewrite list_lookup_alter_ne, list_lookup_insert_ne.
    + intros q j Hne. rewrite tickets_of_claimedState. case_decide; [|done].
      subst q. apply list_lookup_alter_ne. congruence.
    + intros q Hq. cbn. by rewrite lookup_insert_ne.
    + intros q Hq. unfold score_of. cbn. by rewrite lookup_insert_ne.
Qed.

(** C10. The current draw is open.  In a reachable state the draw at
    [currentDrawId] exists and is not executed, so neither [executeDraw] nor
    [buyTicket] can revert with "Draw already executed": [executeDraw]
    succeeds (in a block after genesis, while the draw counter is below the
    largest uint256), and a purchase with the exact price and an accepted
    proof succeeds and binds the ticket to the current draw, the only draw a
    purchase can target. *)
Theorem current_draw_open s :
  reachable s →
  (∃ d, draws s !! currentDrawId s = Some d ∧ executed d = false) ∧
  executed (draw_at s (currentDrawId s)) = false ∧
  (∀ env, executeDraw env s ≠ Revert AlreadyResolved) ∧
  (∀ env v e pf, buyTicket env v e pf s ≠ Revert DrawClosed) ∧
  (∀ env, in_block env → currentDrawId s < MAX_UINT256 →
     ∃ w s', executeDraw env s = Ok (w, s')) ∧
  (∀ env f, executeDraw env s = Revert f →
     f = Panic 17 ∧ (block_number env = 0 ∨ currentDrawId s = MAX_UINT256)) ∧
  (∀ env e pf h, fromExternal e pf (msg_sender env) (this env) = Some h →
     ∃ i s' t, buyTicket env TICKET_PRICE e pf s = Ok (i, s') ∧
               tickets_of s' (msg_sender env) !! N.to_nat i = Some t ∧
               drawId t = currentDrawId s).
Proof.
  intros Hs. pose proof (reachable_invariant s Hs) as I.
  pose proof (inv_current s I) as Hcur.
  assert (∃ d, draws s !! currentDrawId s = Some d ∧ executed d = false) as Hopen.
  { destruct (proj2 (inv_created s I (currentDrawId s))) as [d Hd]; [lia|].
    exists d. split; [done|]. destruct (executed d) eqn:E; [|done].
    apply (inv_executed s I _ d Hd) in E. lia. }
  assert (executed (draw_at s (currentDrawId s)) = false) as Hex.
  { destruct Hopen as (d & Hd & Hex). unfold draw_at. by rewrite Hd. }
  repeat apply conj; try done.
  - intros env. rewrite executeDraw_eq, Hex.
    destruct (1 <=? block_number env); [|done].
    by destruct (currentDrawId s + 1 <=? MAX_UINT256).
  - intros env v e pf. rewrite buyTicket_eq, Hex.
    destruct (negb (v =? TICKET_PRICE)); [done|].
    by destruct (fromExternal e pf (msg_sender env) (this env)).
  - intros env Hb Hlt. rewrite executeDraw_eq, Hex.
    apply N.leb_le in Hb as ->.
    assert ((currentDrawId s + 1 <=? MAX_UINT256) = true) as -> by (apply N.leb_le; lia).
    eauto.
  - intros env f. rewrite executeDraw_eq, Hex.
    destruct (1 <=? block_number env) eqn:Hb.
    + destruct (currentDrawId s + 1 <=? MAX_UINT256) eqn:Hfit; [done|].
      intros [= <-]. split; [done|]. right. apply N.leb_gt in Hfit. lia.
    + intros [= <-]. split; [done|]. left. apply N.leb_gt in Hb. lia.
  - intros env e pf h Hh. rewrite buyTicket_eq, Hex, Hh, N.eqb_refl. cbn [negb].
    eexists _, _, _. split; [done|].
    rewrite tickets_of_bought, decide_True, Nat2N.id, lookup_snoc by done. done.
Qed.

End Claims.
End LuckyBallProofs.

(** ** The claims on the concrete run *)

Module Witnesses.
Import LuckyBall Mock Scenario LuckyBallProofs.

Example be_bytes_258 : be_bytes 2 258 = [1; 2].
Proof. reflexivity. Qed.

Example ids_upto_3 : ids_upto 3 = [1; 2; 3].
Proof. reflexivity. Qed.

Example run_winning : winning (env bob) 1 = 4.
Proof. by vm_compute. Qed.

Example run_tickets :
  tickets_of s5 alice = [mkTicket (Cipher 4) 1 true; mkTicket (Cipher 5) 1 true].
Proof. by vm_compute. Qed.

Example run_scores :
  (score_of s2 bob, score_of s3 alice, score_of s4 alice, score_of s5 alice)
  = (Uninit, Cipher 0, Cipher 10, Cipher 10).
Proof. by vm_compute. Qed.

Example run_log :
  events s5 = [TicketPurchased alice 1 0; TicketPurchased alice 1 1; DrawExecuted 1 4;
               TicketClaimProcessed alice 1 0; TicketClaimProcessed alice 1 1].
Proof. by vm_compute. Qed.

Example run_early_claim :
  claimTicket (env alice) 0 s2 = Revert DrawNotResolved.
Proof. by vm_compute. Qed.

Lemma reachable_s0 : reachable s0.
Proof. apply reachable_deploy. Qed.

Lemma reachable_s1 : reachable s1.
Proof.
  apply (reachable_tx s0 (env alice) (buy 4));
    [apply reachable_s0|]. by vm_compute.
Qed.

Lemma reachable_s2 : reachable s2.
Proof.
  apply (reachable_tx s1 (env alice) (buy 5));
    [apply reachable_s1|]. by vm_compute.
Qed.

Lemma reachable_s3 : reachable s3.
Proof.
  apply (reachable_tx s2 (env bob) ExecuteDraw); [apply reachable_s2|]. by vm_compute.
Qed.

Lemma reachable_s4 : reachable s4.
Proof.
  apply (reachable_tx s3 (env alice) (ClaimTicket 0)); [apply reachable_s3|]. by vm_compute.
Qed.

(** Alice's ticket 0 holds 4, the winning number of draw 1: the claim takes
    her score from 0 to 10. *)
Lemma claimTicket_reward_witness :
  reachable s3 ∧ claimTicket (env alice) 0 s3 = Ok (tt, s4) ∧
  clear32 (score_of s3 alice) = 0 ∧ clear32 (score_of s4 alice) = 10.
Proof.
  assert (claimTicket (env alice) 0 s3 = Ok (tt, s4)) as Hc by by vm_compute.
  split; [apply reachable_s3|]. split; [exact Hc|]. split; [by vm_compute|].
  destruct (claimTicket_reward (env alice) 0 s3 s4 reachable_s3 Hc)
    as (t & d & Ht & Hd & _ & Hwin & _).
  vm_compute in Ht. injection Ht as <-.
  vm_compute in Hd. injection Hd as <-.
  destruct Hwin as [_ Hexact]; [by vm_compute|].
  etrans; [apply Hexact|]; by vm_compute.
Defined.

(** In [s3] Alice has two tickets: index 2 is out of range, ticket 0 can be
    claimed, and once it is claimed a second claim is refused, also after
    her other ticket was claimed in between. *)
Lemma claimTicket_outcome_witness :
  reachable s3 ∧
  claimTicket (env alice) 2 s3 = Revert InvalidIndex ∧
  claimTicket (env alice) 0 s3 = Ok (tt, s4) ∧
  claimTicket (env alice) 0 s5 = Revert AlreadyClaimed.
Proof.
  destruct (claimTicket_outcome (env alice) 2 s3 reachable_s3) as (Hidx & _ & _).
  destruct (claimTicket_outcome (env alice) 0 s3 reachable_s3) as (_ & _ & Hagain).
  assert (claimTicket (env alice) 0 s3 = Ok (tt, s4)) as Hc by by vm_compute.
  split; [apply reachable_s3|]. split; [|split; [exact Hc|]].
  - apply Hidx. by vm_compute.
  - apply (Hagain s4 s5 (env alice) Hc); [|done].
    apply (later_tx s4 s4 (env alice) (ClaimTicket 1)); [apply later_refl|].
    by vm_compute.
Defined.

(** After Bob's draw the registry holds draw 1, resolved, and draw 2, open. *)
Lemma draw_registry_witness :
  reachable s3 ∧ currentDrawId s3 = 2 ∧
  resolved_ids (events s3) = [1] ∧
  (∃ d, draws s3 !! 2 = Some d ∧ executed d = false).
Proof.
  destruct (draw_registry s3 reachable_s3) as (Hopen & _ & _ & Hlog & _).
  split; [apply reachable_s3|]. split; [done|]. split; [exact Hlog|exact Hopen].
Defined.

(** C4, as stated, fails on a fresh contract: draw 0 was never created, and
    [getDraw 0] returns the zero draw instead of failing. *)
Lemma getDraw_not_found_counterexample :
  draws s0 !! 0 = None ∧
  getDraw 0 s0 = Ok (zeroDraw, s0) ∧
  ¬ ∃ f, getDraw 0 s0 = Revert f.
Proof.
  split; [done|]. split; [done|]. by intros [f Hf].
Qed.

Lemma getDraw_total_witness :
  reachable s3 ∧
  getDraw 7 s3 = Ok (zeroDraw, s3) ∧
  getDraw 1 s3 = Ok (mkDraw 4 1000 true, s3).
Proof.
  destruct (getDraw_total s3 7 reachable_s3) as [Habsent _].
  destruct (getDraw_total s3 1 reachable_s3) as [_ Hstored].
  split; [apply reachable_s3|]. split.
  - apply Habsent. right. by vm_compute.
  - destruct Hstored as (d & Hd & Hget); [by vm_compute|].
    vm_compute in Hd. injection Hd as <-. exact Hget.
Defined.

(** One wei short of the price. *)
Lemma buyTicket_wrong_payment_witness :
  TICKET_PRICE - 1 ≠ TICKET_PRICE ∧
  buyTicket (F := fhe) (env alice) (TICKET_PRICE - 1) (4 : N) [1] s0 = Revert InvalidPayment.
Proof.
  assert (TICKET_PRICE - 1 ≠ TICKET_PRICE) as Hv by by vm_compute.
  split; [exact Hv|].
  apply (buyTicket_wrong_payment (F := fhe) (env alice) (TICKET_PRICE - 1) (4 : N) [1] s0 Hv).
Defined.

(** Alice's second purchase returns index 1 and brings her count to 2; a
    purchase with an empty proof is rejected and the count stays 1. *)
Lemma buyTicket_count_witness :
  buyTicket (F := fhe) (env alice) TICKET_PRICE (5 : N) [1] s1 = Ok (1, s2) ∧
  totalTickets alice s1 = Ok (1, s1) ∧
  totalTickets alice s2 = Ok (2, s2) ∧
  buyTicket (F := fhe) (env alice) TICKET_PRICE (5 : N) [] s1 = Revert InvalidProof ∧
  totalTickets alice (commit s1 (transact (env alice) (BuyTicket (F := fhe) TICKET_PRICE (5 : N) []) s1))
    = totalTickets alice s1.
Proof.
  assert (buyTicket (F := fhe) (env alice) TICKET_PRICE (5 : N) [1] s1 = Ok (1, s2)) as Hok
    by by vm_compute.
  assert (buyTicket (F := fhe) (env alice) TICKET_PRICE (5 : N) [] s1 = Revert InvalidProof) as Hno
    by by vm_compute.
  destruct (buyTicket_count (F := fhe) (env alice) TICKET_PRICE (5 : N) [1] s1) as [Hbuy _].
  destruct (buyTicket_count (F := fhe) (env alice) TICKET_PRICE (5 : N) [] s1) as [_ Hfail].
  destruct (Hbuy 1 s2 Hok) as (Hbefore & Hafter & _).
  split; [exact Hok|]. split; [exact Hbefore|]. split; [exact Hafter|].
  split; [exact Hno|]. exact (Hfail InvalidProof Hno alice).
Defined.

(** Bob's draw resolves draw 1 with the number 4. *)
Lemma executeDraw_winning_number_witness :
  executeDraw (env bob) s2 = Ok (4, s3) ∧
  draws s3 !! 1 = Some (mkDraw 4 1000 true) ∧
  events s3 = events s2 ++ [DrawExecuted 1 4].
Proof.
  assert (executeDraw (env bob) s2 = Ok (4, s3)) as Hok by by vm_compute.
  destruct (executeDraw_winning_number (env bob) s2 4 s3 Hok)
    as (_ & _ & _ & Hdraw & _ & Hlog).
  split; [exact Hok|]. split; [exact Hdraw|exact Hlog].
Defined.

(** Bob has bought nothing in [s3]: his score is the uninitialised handle;
    Alice's first purchase set hers to an encryption of zero. *)
Lemma fresh_system_witness :
  currentDrawId s0 = 1 ∧
  getScore bob s3 = Ok (Uninit, s3) ∧
  score_of s1 alice = Cipher 0.
Proof.
  destruct (fresh_system (env alice))
    as (_ & _ & _ & Hcur & _ & _ & _ & Hnone & Hfirst).
  split; [exact Hcur|]. split.
  - apply (Hnone s3 bob reachable_s3). by vm_compute.
  - destruct (Hfirst s0 (env alice) TICKET_PRICE (4 : N) [1] 0 s1 reachable_s0)
      as (_ & _ & Hzero & _); [by vm_compute|by vm_compute|exact Hzero].
Defined.

(** Alice's claim of ticket 0 leaves her ticket 1, the draws and the draw
    counter as they were. *)
Lemma ticket_frame_witness :
  transact (env alice) (ClaimTicket 0) s3 = Ok s4 ∧
  tickets_of s4 alice !! 1%nat = tickets_of s3 alice !! 1%nat ∧
  draws s4 = draws s3 ∧
  currentDrawId s4 = currentDrawId s3.
Proof.
  assert (transact (env alice) (ClaimTicket 0) s3 = Ok s4) as Htx by by vm_compute.
  destruct (ticket_frame (env alice) (ClaimTicket 0) s3 s4 Htx) as (_ & _ & Hclaim).
  destruct (Hclaim 0 eq_refl) as (_ & Hothers & _ & _ & _ & Hdraws & Hcur).
  split; [exact Htx|]. split; [|split; [exact Hdraws|exact Hcur]].
  apply (Hothers alice 1%nat). by vm_compute.
Defined.

(** In [s3] draw 2 is open: a further draw and a further purchase go
    through. *)
Lemma current_draw_open_witness :
  reachable s3 ∧
  executed (draw_at s3 (currentDrawId s3)) = false ∧
  (∃ w s', executeDraw (env bob) s3 = Ok (w, s')) ∧
  (∃ i s' t, buyTicket (F := fhe) (env bob) TICKET_PRICE (9 : N) [1] s3 = Ok (i, s') ∧
             tickets_of s' bob !! N.to_nat i = Some t ∧ drawId t = 2).
Proof.
  destruct (current_draw_open s3 reachable_s3)
    as (_ & Hopen & _ & _ & Hdraw & _ & Hbuy).
  split; [apply reachable_s3|]. split; [exact Hopen|]. split.
  - apply Hdraw; by vm_compute.
  - apply (Hbuy (env bob) (9 : N) [1] (Cipher 9)). by vm_compute.
Defined.

End Witnesses.
